(** * plicVofSolving: the orchestration layer of the PLIC-VOF solver

    Source: src/plic/plicVofSolving/plicVofSolving.H (class Foam::plicVofSolving).

    Modelling conventions.
    - [scalar] is modelled by the exact rationals [Q]: comparisons are those of
      the number line, arithmetic is exact.  Rounding and non-numbers of the
      machine representation are outside the model.  Properties of the code
      are stated only where they hold as well for its rounded arithmetic on
      numbers: the facts on the bands use no more of [1.0 - surfCellTol_]
      than that rounding keeps the order, and the mass flux is stated as the
      code's own expression.
    - [label] is a non-negative index, modelled by [nat].
    - A field is the list of its values in label order.  A surface field is
      indexed by the flat face label (the index space of [faceValue] /
      [setFaceValue]: internal faces first, boundary faces after them).
    - [operator[]] on a field is [nth_error]: an index outside the field has no
      defined value ([None]).
    - Non-const member functions are computations in a state monad over the
      object; const member functions are read-only computations ([gets]).
    - Timing diagnostics, the controls dictionary, the output switch and the
      processor-patch lists are not part of the model. *)

From Stdlib Require Import QArith Qminmax List Bool Arith Lia Lqa.
Import ListNotations.

Local Open Scope Q_scope.

(** ** A small state monad for member functions *)

Definition State (S A : Type) : Type := S -> A * S.

Definition ret {S A : Type} (a : A) : State S A := fun s => (a, s).

Definition bind {S A B : Type} (m : State S A) (k : A -> State S B) : State S B :=
  fun s => let (a, s') := m s in k a s'.

Definition gets {S A : Type} (f : S -> A) : State S A := fun s => (f s, s).

Definition modify {S : Type} (f : S -> S) : State S unit := fun s => (tt, f s).

Definition when {S : Type} (b : bool) (m : State S unit) : State S unit :=
  if b then m else ret tt.

Definition exec {S A : Type} (m : State S A) (s : S) : S := snd (m s).

Definition eval {S A : Type} (m : State S A) (s : S) : A := fst (m s).

Declare Scope solver_scope.
Delimit Scope solver_scope with solver.
Notation "m1 ;; m2" := (bind m1 (fun _ => m2))
  (at level 61, right associativity) : solver_scope.
Notation "x <- m1 ;; m2" := (bind m1 (fun x => m2))
  (at level 61, m1 at next level, right associativity) : solver_scope.

(** ** Primitive types of the mesh library *)

Definition label : Type := nat.
Definition scalar : Type := Q.
Definition vector : Type := (scalar * scalar * scalar)%type.

Definition scalarField : Type := list scalar.
Definition surfaceScalarField : Type := list scalar.
Definition volVectorField : Type := list vector.
Definition boolList : Type := list bool.
Definition DynamicLabelList : Type := list label.
Definition DynamicScalarList : Type := list scalar.

(** [a < b] and [a <= b] on scalars, as booleans. *)
Definition ltS (a b : scalar) : bool := negb (Qle_bool b a).
Definition leS (a b : scalar) : bool := Qle_bool a b.
(** [a >= b] is [b <= a]. *)
Definition geS (a b : scalar) : bool := Qle_bool b a.

(** Inner product of two vectors. *)
Definition dot (u v : vector) : scalar :=
  let '(ux, uy, uz) := u in
  let '(vx, vy, vz) := v in
  ux * vx + uy * vy + uz * vz.

(** Modelled from the spec: the face of section 3 (Data model), owned by the
    mesh, which is not among the sources: its owner cell, its neighbour cell
    (absent on a boundary face) and its unit normal. *)
Record face : Type := mkFace {
  faceOwner : label;
  faceNeighbour : option label;
  faceNormal : vector
}.

(** The part of [fvMesh] the class reads: [nCells()], [topoChanging()],
    [time().deltaT()], and (for the operations modelled from the spec) cell
    volumes and faces. *)
Record fvMesh : Type := mkMesh {
  nCells : label;
  topoChanging : bool;
  deltaT : scalar;
  cellVolumes : scalarField;
  faces : list face
}.

(** Modelled from the spec: the interface plane of section 3
    (InterfacePlane: unit normal and scalar offset).  The class
    [plicInterface] is declared in plicInterfaceField.H, which is not among the
    sources. *)
Record plicInterface : Type := mkInterface {
  planeNormal : vector;
  planeOffset : scalar
}.

Definition DynamicPlicInterfaceList : Type := list plicInterface.

(** ** The object state (private data of the class) *)

Record plicVofSolving : Type := mkSolver {
  mesh_ : fvMesh;
  alpha1In_ : scalarField;
  plicInterfaceField_ : list plicInterface;
  phi_ : surfaceScalarField;
  U_ : volVectorField;
  dVf_ : surfaceScalarField;
  nAlphaBounds_ : label;
  surfCellTol_ : scalar;
  mixedCells_ : DynamicLabelList;
  cellStatus_ : DynamicLabelList;
  checkBounding_ : boolList;
  cellIsBounded_ : boolList;
  bsFaces_ : DynamicLabelList;
  bsUn0_ : DynamicScalarList;
  bsInterface0_ : DynamicPlicInterfaceList
}.

Definition set_alpha1In (v : scalarField) (s : plicVofSolving) : plicVofSolving :=
  mkSolver (mesh_ s) v (plicInterfaceField_ s) (phi_ s) (U_ s) (dVf_ s)
    (nAlphaBounds_ s) (surfCellTol_ s) (mixedCells_ s) (cellStatus_ s)
    (checkBounding_ s) (cellIsBounded_ s) (bsFaces_ s) (bsUn0_ s) (bsInterface0_ s).

Definition set_plicInterfaceField (v : list plicInterface) (s : plicVofSolving)
  : plicVofSolving :=
  mkSolver (mesh_ s) (alpha1In_ s) v (phi_ s) (U_ s) (dVf_ s)
    (nAlphaBounds_ s) (surfCellTol_ s) (mixedCells_ s) (cellStatus_ s)
    (checkBounding_ s) (cellIsBounded_ s) (bsFaces_ s) (bsUn0_ s) (bsInterface0_ s).

Definition set_dVf (v : surfaceScalarField) (s : plicVofSolving) : plicVofSolving :=
  mkSolver (mesh_ s) (alpha1In_ s) (plicInterfaceField_ s) (phi_ s) (U_ s) v
    (nAlphaBounds_ s) (surfCellTol_ s) (mixedCells_ s) (cellStatus_ s)
    (checkBounding_ s) (cellIsBounded_ s) (bsFaces_ s) (bsUn0_ s) (bsInterface0_ s).

Definition set_mixedCells (v : DynamicLabelList) (s : plicVofSolving) : plicVofSolving :=
  mkSolver (mesh_ s) (alpha1In_ s) (plicInterfaceField_ s) (phi_ s) (U_ s) (dVf_ s)
    (nAlphaBounds_ s) (surfCellTol_ s) v (cellStatus_ s)
    (checkBounding_ s) (cellIsBounded_ s) (bsFaces_ s) (bsUn0_ s) (bsInterface0_ s).

Definition set_cellStatus (v : DynamicLabelList) (s : plicVofSolving) : plicVofSolving :=
  mkSolver (mesh_ s) (alpha1In_ s) (plicInterfaceField_ s) (phi_ s) (U_ s) (dVf_ s)
    (nAlphaBounds_ s) (surfCellTol_ s) (mixedCells_ s) v
    (checkBounding_ s) (cellIsBounded_ s) (bsFaces_ s) (bsUn0_ s) (bsInterface0_ s).

Definition set_checkBounding (v : boolList) (s : plicVofSolving) : plicVofSolving :=
  mkSolver (mesh_ s) (alpha1In_ s) (plicInterfaceField_ s) (phi_ s) (U_ s) (dVf_ s)
    (nAlphaBounds_ s) (surfCellTol_ s) (mixedCells_ s) (cellStatus_ s)
    v (cellIsBounded_ s) (bsFaces_ s) (bsUn0_ s) (bsInterface0_ s).

Definition set_cellIsBounded (v : boolList) (s : plicVofSolving) : plicVofSolving :=
  mkSolver (mesh_ s) (alpha1In_ s) (plicInterfaceField_ s) (phi_ s) (U_ s) (dVf_ s)
    (nAlphaBounds_ s) (surfCellTol_ s) (mixedCells_ s) (cellStatus_ s)
    (checkBounding_ s) v (bsFaces_ s) (bsUn0_ s) (bsInterface0_ s).

Definition set_bsFaces (v : DynamicLabelList) (s : plicVofSolving) : plicVofSolving :=
  mkSolver (mesh_ s) (alpha1In_ s) (plicInterfaceField_ s) (phi_ s) (U_ s) (dVf_ s)
    (nAlphaBounds_ s) (surfCellTol_ s) (mixedCells_ s) (cellStatus_ s)
    (checkBounding_ s) (cellIsBounded_ s) v (bsUn0_ s) (bsInterface0_ s).

Definition set_bsUn0 (v : DynamicScalarList) (s : plicVofSolving) : plicVofSolving :=
  mkSolver (mesh_ s) (alpha1In_ s) (plicInterfaceField_ s) (phi_ s) (U_ s) (dVf_ s)
    (nAlphaBounds_ s) (surfCellTol_ s) (mixedCells_ s) (cellStatus_ s)
    (checkBounding_ s) (cellIsBounded_ s) (bsFaces_ s) v (bsInterface0_ s).

Definition set_bsInterface0 (v : DynamicPlicInterfaceList) (s : plicVofSolving)
  : plicVofSolving :=
  mkSolver (mesh_ s) (alpha1In_ s) (plicInterfaceField_ s) (phi_ s) (U_ s) (dVf_ s)
    (nAlphaBounds_ s) (surfCellTol_ s) (mixedCells_ s) (cellStatus_ s)
    (checkBounding_ s) (cellIsBounded_ s) (bsFaces_ s) (bsUn0_ s) v.

Definition Solver (A : Type) : Type := State plicVofSolving A.

(** ** Container operations of the mesh library *)

(** [List<T>::resize(n)]: the first [min n (size)] entries are kept; entries
    beyond the old size hold whatever the fresh storage holds, given here by
    [fresh] (position to content). *)
Definition resize {T : Type} (fresh : label -> T) (n : label) (l : list T) : list T :=
  firstn n l ++ map fresh (seq (length l) (n - length l)).

(** [List<T>::operator=(const T&)]: every entry is assigned the value. *)
Definition assignAll {T : Type} (v : T) (l : list T) : list T :=
  map (fun _ => v) l.

(** ** Inline member functions (lines 242-288, 393-408 of the header) *)

(** [isAMixedCell(cellI)]:
    [surfCellTol_ < alpha1In_[cellI] && alpha1In_[cellI] < 1.0 - surfCellTol_]. *)
Definition isAMixedCell (s : plicVofSolving) (cellI : label) : option bool :=
  match nth_error (alpha1In_ s) cellI with
  | Some a => Some (ltS (surfCellTol_ s) a && ltS a (1 - surfCellTol_ s))
  | None => None
  end.

(** [isAnEmptyCell(cellI)]: [alpha1In_[cellI] <= surfCellTol_]. *)
Definition isAnEmptyCell (s : plicVofSolving) (cellI : label) : option bool :=
  match nth_error (alpha1In_ s) cellI with
  | Some a => Some (leS a (surfCellTol_ s))
  | None => None
  end.

(** [isAFullCell(cellI)]: [alpha1In_[cellI] >= 1.0 - surfCellTol_]. *)
Definition isAFullCell (s : plicVofSolving) (cellI : label) : option bool :=
  match nth_error (alpha1In_ s) cellI with
  | Some a => Some (geS a (1 - surfCellTol_ s))
  | None => None
  end.

(** [clearPlicInterfaceData()], statement by statement.  [fresh] gives the
    content of storage allocated by [resize]. *)
Definition clearPlicInterfaceData (fresh : label -> bool) : Solver unit :=
  (modify (set_mixedCells []) ;;
   modify (set_cellStatus []) ;;
   modify (set_bsFaces []) ;;
   modify (set_bsUn0 []) ;;
   modify (set_bsInterface0 []) ;;
   topo <- gets (fun s => topoChanging (mesh_ s)) ;;
   when topo
     (n <- gets (fun s => nCells (mesh_ s)) ;;
      modify (fun s => set_checkBounding (resize fresh n (checkBounding_ s)) s) ;;
      n' <- gets (fun s => nCells (mesh_ s)) ;;
      modify (fun s => set_cellIsBounded (resize fresh n' (cellIsBounded_ s)) s)) ;;
   modify (fun s => set_checkBounding (assignAll false (checkBounding_ s)) s) ;;
   modify (fun s => set_cellIsBounded (assignAll false (cellIsBounded_ s)) s))%solver.

(** Field arithmetic used by [getRhoPhi]: scalar times field, field over
    scalar, field plus field (entry by entry, on fields of one mesh). *)
Definition scaleField (c : scalar) (f : surfaceScalarField) : surfaceScalarField :=
  map (fun x => c * x) f.

Definition divField (f : surfaceScalarField) (c : scalar) : surfaceScalarField :=
  map (fun x => x / c) f.

Fixpoint addField (f g : surfaceScalarField) : surfaceScalarField :=
  match f, g with
  | x :: f', y :: g' => (x + y) :: addField f' g'
  | _, _ => []
  end.

(** [getRhoPhi(rho1, rho2) const]:
    [(rho1 - rho2)*dVf_/mesh_.time().deltaT() + rho2*phi_]. *)
Definition getRhoPhi (rho1 rho2 : scalar) : Solver surfaceScalarField :=
  gets (fun s =>
    addField (divField (scaleField (rho1 - rho2) (dVf_ s)) (deltaT (mesh_ s)))
             (scaleField rho2 (phi_ s))).

(** The timing members of the class (lines 120-127 of the header), kept apart
    from the state above: no function modelled here writes them. *)
Record solvingTimes : Type := mkTimes {
  orientationTime_ : scalar;
  reconstructionTime_ : scalar;
  advectionTime_ : scalar
}.

(** [orientationTime() const], [reconstructionTime() const],
    [advectionTime() const] (lines 419-435). *)
Definition orientationTime (t : solvingTimes) : scalar := orientationTime_ t.
Definition reconstructionTime (t : solvingTimes) : scalar := reconstructionTime_ t.
Definition advectionTime (t : solvingTimes) : scalar := advectionTime_ t.

(** [VofSolvingTime() const] (lines 411-417):
    [orientationTime_ + reconstructionTime_ + advectionTime_]. *)
Definition VofSolvingTime (t : solvingTimes) : scalar :=
  orientationTime_ t + reconstructionTime_ t + advectionTime_ t.

(** ** Member functions defined in plicVofSolving.C

    The header declares these functions; their bodies are not among the
    sources.  Each is modelled from the specification (spec.md), section by
    section, and from the comment the header gives at its declaration. *)

(** Field access inside the modelled operations: the fields live on the mesh,
    so a cell or face label of the mesh is in range; a label outside the field
    reads as zero. *)
Definition readScalar (f : list scalar) (i : label) : scalar := nth i f 0.

Definition readVector (f : list vector) (i : label) : vector := nth i f (0, 0, 0).

(** A list paired with its labels. *)
Definition labelled {T : Type} (l : list T) : list (label * T) :=
  combine (seq 0 (length l)) l.

(** Run a member function once per element, in order ([forAll]). *)
Fixpoint forEach {S A : Type} (l : list A) (body : A -> State S unit) : State S unit :=
  match l with
  | [] => ret tt
  | x :: l' => bind (body x) (fun _ => forEach l' body)
  end.

(** Modelled from the spec: CellStatus of section 3, the derived tag
    {empty, mixed, full} of a cell. *)
Inductive CellStatus : Type := emptyCell | mixedCell | fullCell.

(** Modelled from the spec: the tag of a cell "by fraction tolerance band"
    (section 4.6), decided by the three predicates of the header in the order
    mixed, empty, full.  A label outside the field has no tag. *)
Definition cellStatus (s : plicVofSolving) (cellI : label) : option CellStatus :=
  match isAMixedCell s cellI, isAnEmptyCell s cellI, isAFullCell s cellI with
  | Some true, _, _ => Some mixedCell
  | Some false, Some true, _ => Some emptyCell
  | Some false, Some false, Some true => Some fullCell
  | _, _, _ => None
  end.

(** The step of the classification scan for one cell. *)
Definition appendIfMixed (cellI : label) : Solver unit :=
  (m <- gets (fun s => isAMixedCell s cellI) ;;
   match m with
   | Some true => modify (fun s => set_mixedCells (mixedCells_ s ++ [cellI]) s)
   | _ => ret tt
   end)%solver.

(** Modelled from the spec: [getMixedCellList()], whose body is missing: the
    transition Idle -> Classified of section 4.6: the caches are cleared
    first, then all cells are scanned and the labels of the mixed ones are
    appended to the mixed-cell list.  (The entries of [cellStatus_] are not
    described by the spec; the model leaves that list as the clearing left
    it.) *)
Definition getMixedCellList (fresh : label -> bool) : Solver unit :=
  (clearPlicInterfaceData fresh ;;
   n <- gets (fun s => length (alpha1In_ s)) ;;
   forEach (seq 0 n) appendIfMixed)%solver.

(** Modelled from the spec: the upwind convention of the glossary ("the cell
    the flux is leaving"), with the flux of a face counted positive from its
    owner to its neighbour: the owner for a non-negative flux, the neighbour
    for a negative one.  Through a boundary face with negative flux the fluid
    enters the domain: it leaves no cell of the mesh. *)
Definition upwindCell (fc : face) (phiF : scalar) : option label :=
  if leS 0 phiF then Some (faceOwner fc) else faceNeighbour fc.

(** Modelled from the spec: [setDownwindFaces(cellI, downwindFaces)], whose
    body is missing; section 4.6 ("re-derives downwind face sets per cell from
    flux sign") and the header comment at its declaration: "for a given cell
    return labels of faces fluxing out of this cell (based on sign of phi)". *)
Definition fluxesOutOf (cellI : label) (fc : face) (phiF : scalar) : bool :=
  (Nat.eqb (faceOwner fc) cellI && ltS 0 phiF)
  || (match faceNeighbour fc with
      | Some nb => Nat.eqb nb cellI && ltS phiF 0
      | None => false
      end).

Definition setDownwindFaces (s : plicVofSolving) (cellI : label) : DynamicLabelList :=
  map fst
    (filter (fun lf => fluxesOutOf cellI (snd lf) (readScalar (phi_ s) (fst lf)))
            (labelled (faces (mesh_ s)))).

(** Modelled from the spec: [netFlux(dVf, cellI)], whose body is missing;
    section 4.4 ("the net outflow implied by summing its face fluxes") and the
    header comment at its declaration: "given the face volume transport dVf
    calculates the total volume leaving a given cell". *)
Definition leavingThrough (cellI : label) (fc : face) (v : scalar) : scalar :=
  (if Nat.eqb (faceOwner fc) cellI then v else 0)
  + (match faceNeighbour fc with
     | Some nb => if Nat.eqb nb cellI then - v else 0
     | None => 0
     end).

Definition netFlux (m : fvMesh) (dVf : surfaceScalarField) (cellI : label) : scalar :=
  fold_right Qplus 0
    (map (fun lf => leavingThrough cellI (snd lf) (readScalar dVf (fst lf)))
         (labelled (faces m))).

(** Modelled from the spec: BoundaryInterfaceCache of section 3, held in the
    three parallel lists [bsFaces_], [bsInterface0_], [bsUn0_]: the snapshot
    of a boundary face is the entry appended last for it. *)
Definition boundaryCache (s : plicVofSolving)
  : list (label * (plicInterface * scalar)) :=
  combine (bsFaces_ s) (combine (bsInterface0_ s) (bsUn0_ s)).

Definition cachedInterface (s : plicVofSolving) (faceI : label)
  : option (plicInterface * scalar) :=
  option_map snd
    (find (fun e => Nat.eqb (fst e) faceI) (rev (boundaryCache s))).

(** Modelled from the spec: the clamp of section 4.4 ("an unconditional clamp
    of the fraction field to [0,1]"). *)
Definition clamp01 (a : scalar) : scalar := Qmin 1 (Qmax 0 a).

(** Modelled from the spec: [applyBruteForceBounding()], whose body is
    missing: the last-resort clamp of section 4.4.  The header documents the
    function as "apply the bounding based on user inputs"; the spec describes
    an unconditional clamp and names no input that switches it, and that is
    what is modelled. *)
Definition applyBruteForceBounding : Solver unit :=
  modify (fun s => set_alpha1In (map clamp01 (alpha1In_ s)) s).

(** ** The engines

    The engines the class owns or calls, whose code is not among the sources,
    and the formulas the spec leaves open, as one interface.
    - [clippedArea]: FaceClipper ([plicCutFace_]), the area of the part of a
      face on the reference-fluid side of the plane displaced by the swept
      distance (section 4.3).
    - [limiterScale]: FluxLimiter, the "Courant-number-style" factor by which
      the outgoing fluxes of a cell are scaled, from its fraction, its volume
      and its net outflow (section 4.4 names the correction and gives no
      formula).
    - [estimateNormal]: OrientationEstimator, the unit normal of a mixed cell
      (section 4.1).
    - [fitOffset]: PlaneFitter ([plicCutCell_]),
      [fit(cell, normal, targetFraction)], the plane offset (section 4.2). *)
Class Engines : Type := mkEngines {
  clippedArea : label -> plicInterface -> scalar -> scalar;
  limiterScale : scalar -> scalar -> scalar -> scalar;
  estimateNormal : fvMesh -> scalarField -> label -> vector;
  fitOffset : fvMesh -> label -> vector -> scalar -> scalar
}.

Section Model.

Context {engines : Engines}.

(** Modelled from the spec: [orientation()] and [reconstruction()], whose
    bodies are missing: the transitions Classified -> Oriented ->
    Reconstructed of section 4.6: every mixed cell receives the plane fitted
    to its fraction along its estimated normal; other cells keep their
    entry. *)
Definition reconstructCell (s : plicVofSolving) (lp : label * plicInterface)
  : plicInterface :=
  let (cellI, old) := lp in
  match isAMixedCell s cellI with
  | Some true =>
      let n := estimateNormal (mesh_ s) (alpha1In_ s) cellI in
      mkInterface n (fitOffset (mesh_ s) cellI n (readScalar (alpha1In_ s) cellI))
  | _ => old
  end.

Definition reconstruction : Solver unit :=
  modify (fun s =>
    set_plicInterfaceField
      (map (reconstructCell s) (labelled (plicInterfaceField_ s))) s).

(** Modelled from the spec: the transported volume of section 4.3 for a plane
    and a normal speed, "area x local swept thickness", the swept distance
    being the speed integrated over the sub-interval. *)
Definition sweptVolume (faceI : label) (p : plicInterface) (un dt : scalar) : scalar :=
  let sweep := un * dt in
  clippedArea faceI p sweep * sweep.

(** Modelled from the spec: what a face transports by the status of cell
    [c] (section 4.3): a full cell passes the whole flux of the sub-interval,
    an empty one nothing, a mixed one what its plane leaves of the face. *)
Definition statusTransport (s : plicVofSolving) (dt : scalar)
  (faceI : label) (fc : face) (c : label) : scalar :=
  match cellStatus s c with
  | Some fullCell => readScalar (phi_ s) faceI * dt
  | Some emptyCell => 0
  | Some mixedCell =>
      match nth_error (plicInterfaceField_ s) c with
      | Some p => sweptVolume faceI p (dot (readVector (U_ s) c) (faceNormal fc)) dt
      | None => 0
      end
  | None => 0
  end.

(** Modelled from the spec: the upwind rule of section 4.3: the status is
    that of the upwind cell.  A boundary face through which fluid enters has
    no upwind cell in the mesh; the last sentence of section 4.3 takes "the
    adjoining internal cell's status" there. *)
Definition upwindTransport (s : plicVofSolving) (dt : scalar)
  (faceI : label) (fc : face) : scalar :=
  match upwindCell fc (readScalar (phi_ s) faceI) with
  | Some c => statusTransport s dt faceI fc c
  | None => statusTransport s dt faceI fc (faceOwner fc)
  end.

(** Modelled from the spec: FaceClipper's [integrate] for one face
    (section 4.3).  On a boundary face the cached snapshot is used "when
    available", else the upwind rule with the adjoining internal cell. *)
Definition faceTransport (s : plicVofSolving) (dt : scalar)
  (faceI : label) (fc : face) : scalar :=
  match faceNeighbour fc with
  | Some _ => upwindTransport s dt faceI fc
  | None =>
      match cachedInterface s faceI with
      | Some (p, un) => sweptVolume faceI p un dt
      | None => upwindTransport s dt faceI fc
      end
  end.

(** Modelled from the spec: the snapshots taken in a sub-cycle (section 3,
    BoundaryInterfaceCache; header: "boundary faces downwind to a surface
    cell"): one entry {face, plane, normal speed} for every boundary face
    through which a mixed cell loses fluid. *)
Definition boundarySnapshot (s : plicVofSolving) (lf : label * face)
  : option (label * (plicInterface * scalar)) :=
  let (faceI, fc) := lf in
  let c := faceOwner fc in
  match faceNeighbour fc, cellStatus s c, nth_error (plicInterfaceField_ s) c with
  | None, Some mixedCell, Some p =>
      if fluxesOutOf c fc (readScalar (phi_ s) faceI)
      then Some (faceI, (p, dot (readVector (U_ s) c) (faceNormal fc)))
      else None
  | _, _, _ => None
  end.

Fixpoint collect {A B : Type} (f : A -> option B) (l : list A) : list B :=
  match l with
  | [] => []
  | x :: l' => match f x with
               | Some y => y :: collect f l'
               | None => collect f l'
               end
  end.

Definition newSnapshots (s : plicVofSolving)
  : list (label * (plicInterface * scalar)) :=
  collect (boundarySnapshot s) (labelled (faces (mesh_ s))).

(** The snapshots are appended to the three lists of the cache. *)
Definition storeBoundaryInterfaces : Solver unit :=
  (new <- gets newSnapshots ;;
   modify (fun s => set_bsFaces (bsFaces_ s ++ map fst new) s) ;;
   modify (fun s => set_bsInterface0
                      (bsInterface0_ s ++ map (fun e => fst (snd e)) new) s) ;;
   modify (fun s => set_bsUn0 (bsUn0_ s ++ map (fun e => snd (snd e)) new) s))%solver.

(** The transported volume of every face of the mesh, in label order. *)
Definition rawFluxes (dt : scalar) (s : plicVofSolving) : surfaceScalarField :=
  map (fun lf => faceTransport s dt (fst lf) (snd lf)) (labelled (faces (mesh_ s))).

(** Modelled from the spec: [timeIntegratedFlux()], whose body is missing,
    for a sub-interval [dt] (section 4.3; header: "for each face calculate
    volumetric face transport during dt"): the snapshots of this sub-cycle
    are stored, then every face is integrated. *)
Definition timeIntegratedFlux (dt : scalar) : Solver surfaceScalarField :=
  (storeBoundaryInterfaces ;; gets (rawFluxes dt))%solver.

(** Modelled from the spec: [limitFluxes()], whose body is missing:
    FluxLimiter, section 4.4.  The fraction a cell would have after the
    update: *)
Definition impliedFraction (s : plicVofSolving) (dVf : surfaceScalarField)
  (cellI : label) : scalar :=
  readScalar (alpha1In_ s) cellI
  - netFlux (mesh_ s) dVf cellI / readScalar (cellVolumes (mesh_ s)) cellI.

Definition outsideUnitInterval (a : scalar) : bool := ltS a 0 || ltS 1 a.

Definition memLabel (i : label) (l : list label) : bool := existsb (Nat.eqb i) l.

(** One cell of a pass: when the implied fraction leaves [0,1], the outgoing
    fluxes of the cell that no earlier step corrected are scaled and marked.
    The state of the limiter is the flux field and the marks. *)
Definition limitCell (s : plicVofSolving) (cellI : label)
  (acc : surfaceScalarField * boolList) : surfaceScalarField * boolList :=
  let (dVf, corrected) := acc in
  if outsideUnitInterval (impliedFraction s dVf cellI) then
    let lam := limiterScale (readScalar (alpha1In_ s) cellI)
                            (readScalar (cellVolumes (mesh_ s)) cellI)
                            (netFlux (mesh_ s) dVf cellI) in
    let out := setDownwindFaces s cellI in
    (map (fun lv =>
            if memLabel (fst lv) out && negb (nth (fst lv) corrected false)
            then lam * snd lv else snd lv)
         (labelled dVf),
     map (fun lm => snd lm || memLabel (fst lm) out) (labelled corrected))
  else acc.

Definition limitPass (s : plicVofSolving)
  (acc : surfaceScalarField * boolList) : surfaceScalarField * boolList :=
  fold_left (fun a cellI => limitCell s cellI a)
            (seq 0 (length (alpha1In_ s))) acc.

(** [nAlphaBounds_] passes over all cells ("a bounded number of passes"). *)
Definition limitFluxes (s : plicVofSolving) (dVf : surfaceScalarField)
  : surfaceScalarField :=
  fst (Nat.iter (nAlphaBounds_ s) (limitPass s)
                (dVf, repeat false (length dVf))).

(** Modelled from the spec: the fraction update of a sub-cycle (section 3,
    invariants): the net volume leaving a cell, divided by the cell volume,
    is taken off its fraction. *)
Definition updateFraction (s : plicVofSolving) (dVf : surfaceScalarField)
  : scalarField :=
  map (fun la => snd la
                 - netFlux (mesh_ s) dVf (fst la)
                   / readScalar (cellVolumes (mesh_ s)) (fst la))
      (labelled (alpha1In_ s)).

(** Modelled from the spec: one sub-cycle of section 4.6 on one partition:
    FaceClipper per face, FluxLimiter per cell, then the fraction field is
    updated in place and the corrected volumes are added to the total of the
    timestep.  Cells are re-classified from the updated field when their tag
    is next read. *)
Definition subCycle (dt : scalar) : Solver unit :=
  (raw <- timeIntegratedFlux dt ;;
   lim <- gets (fun s => limitFluxes s raw) ;;
   modify (fun s => set_alpha1In (updateFraction s lim) s) ;;
   modify (fun s => set_dVf (addField (dVf_ s) lim) s))%solver.

(** Modelled from the spec: [advection()], whose body is missing: the transition
    Reconstructed -> Advected of section 4.6.  [subIntervals] are the lengths
    of the sub-cycles (their choice from the Courant number is left open by
    the spec).  The total transport volume starts at zero; the call ends with
    the brute-force bounding. *)
Definition advection (subIntervals : list scalar) : Solver unit :=
  (modify (fun s => set_dVf (map (fun _ => 0) (faces (mesh_ s))) s) ;;
   forEach subIntervals subCycle ;;
   applyBruteForceBounding)%solver.

(** Modelled from the spec: one timestep of the state machine of section 4.6,
    Idle -> Classified -> Oriented -> Reconstructed -> Advected. *)
Definition advanceTimestep (fresh : label -> bool) (subIntervals : list scalar)
  : Solver unit :=
  (getMixedCellList fresh ;;
   reconstruction ;;
   advection subIntervals)%solver.

End Model.

(** ** Predicates used in the statements *)

(** The number of band predicates that answer [true] for a cell. *)
Definition holds (r : option bool) : nat :=
  match r with Some true => 1 | _ => 0 end.

Definition bandsHolding (s : plicVofSolving) (cellI : label) : nat :=
  (holds (isAnEmptyCell s cellI) + holds (isAMixedCell s cellI)
   + holds (isAFullCell s cellI))%nat.

Definition isMixedLabel (s : plicVofSolving) (cellI : label) : bool :=
  match isAMixedCell s cellI with Some true => true | _ => false end.

Definition inUnitInterval (a : scalar) : Prop := 0 <= a /\ a <= 1.

(** Modelled from the spec: VolumeFractionField of section 3, a "per-cell
    scalar in [0,1]". *)
Definition volumeFractionField (f : scalarField) : Prop :=
  Forall inUnitInterval f.

Definition zeroField (f : list scalar) : Prop := Forall (fun x => x == 0) f.

Definition zeroVector (u : vector) : Prop :=
  fst (fst u) == 0 /\ snd (fst u) == 0 /\ snd u == 0.

Definition zeroVectorField (f : list vector) : Prop := Forall zeroVector f.

(** Two fields hold equal values, cell by cell. *)
Definition sameField (f g : list scalar) : Prop := Forall2 Qeq f g.

(** What a sub-cycle keeps when flux and velocity vanish: the supplied
    fields, no interface speed in the cache, no transport volume, one
    transport volume per face, and the fractions [alpha0] it started from. *)
Definition atRest (alpha0 : scalarField) (s : plicVofSolving) : Prop :=
  zeroField (phi_ s) /\ zeroVectorField (U_ s) /\ zeroField (bsUn0_ s) /\
  zeroField (dVf_ s) /\ length (dVf_ s) = length (faces (mesh_ s)) /\
  sameField (alpha1In_ s) alpha0.

(** * A concrete scenario: a channel of two unit cubes

    Cell 0 spans x in [0,1], cell 1 spans x in [1,2].  Face 0 is the internal
    face between them, face 1 the inlet (boundary of cell 0), face 2 the outlet
    (boundary of cell 1).  The flow goes along +x with speed 1/2. *)

Definition channelFaces : list face :=
  [ mkFace 0%nat (Some 1%nat) (1, 0, 0);
    mkFace 0%nat None (- (1), 0, 0);
    mkFace 1%nat None (1, 0, 0) ].

Definition channelMesh (topo : bool) : fvMesh :=
  mkMesh 2%nat topo 1 [1; 1] channelFaces.

(** Cell 0 is full, cell 1 is half filled; entries of an earlier mesh sit in
    every cache, and the flag arrays have the sizes of that mesh. *)
Definition channel (topo : bool) : plicVofSolving :=
  mkSolver (channelMesh topo)
    [1; 1 # 2]
    [mkInterface (1, 0, 0) 0; mkInterface (1, 0, 0) 0]
    [1 # 2; - (1 # 2); 1 # 2]
    [(1 # 2, 0, 0); (1 # 2, 0, 0)]
    [1 # 4; - (1 # 4); 0]
    3%nat
    (1 # 100)
    [7%nat] [7%nat]
    [true; true; true] [true]
    [2%nat] [3 # 4] [mkInterface (0, 1, 0) (1 # 3)].

(** The same channel with the fluid at rest. *)
Definition restingChannel : plicVofSolving :=
  mkSolver (channelMesh false)
    [1; 1 # 2]
    [mkInterface (1, 0, 0) 0; mkInterface (1, 0, 0) 0]
    [0; 0; 0]
    [(0, 0, 0); (0, 0, 0)]
    [3; 3; 3]
    3%nat
    (1 # 100)
    [] []
    [false; false] [false; false]
    [] [] [].

(** Face cutting in the channel: the plane of a cell is x = offset, measured
    from the cell's inlet side, with the reference fluid below it.  A face
    crossed by outflow (non-negative sweep) is wetted once the displaced plane
    has passed the far side of the cell; a face crossed by inflow is wetted. *)
Definition rowClip (faceI : label) (p : plicInterface) (sweep : scalar) : scalar :=
  if leS 0 sweep
  then (if ltS 1 (planeOffset p + sweep) then 1 else 0)
  else 1.

Definition halveFluxes (a v net : scalar) : scalar := 1 # 2.

Definition alongX (m : fvMesh) (alpha : scalarField) (cellI : label) : vector :=
  (1, 0, 0).

(** In a unit cube cut across x the offset is the fraction itself. *)
Definition offsetIsFraction (m : fvMesh) (cellI : label) (n : vector)
  (target : scalar) : scalar := target.

Definition channelEngines : Engines :=
  mkEngines rowClip halveFluxes alongX offsetIsFraction.

Definition freshTrue (i : label) : bool := true.

(** The channel with another tolerance for surface cells. *)
Definition channelWithTolerance (tol : scalar) : plicVofSolving :=
  mkSolver (channelMesh false)
    [1; 1 # 2]
    [mkInterface (1, 0, 0) 0; mkInterface (1, 0, 0) 0]
    [1 # 2; - (1 # 2); 1 # 2]
    [(1 # 2, 0, 0); (1 # 2, 0, 0)]
    [1 # 4; - (1 # 4); 0]
    3%nat
    tol
    [] []
    [false; false] [false; false]
    [] [] [].

Definition channelTimes : solvingTimes := mkTimes (1 # 10) (2 # 10) (3 # 10).

(** Five cells without faces, of fractions 0, 1/200, 1/2, 199/200 and 1. *)
Definition gradedCells (tol : scalar) : plicVofSolving :=
  mkSolver (mkMesh 5%nat false 1 [1; 1; 1; 1; 1] [])
    [0; 1 # 200; 1 # 2; 199 # 200; 1]
    [] [] [] []
    3%nat
    tol
    [] []
    [false; false; false; false; false] [false; false; false; false; false]
    [] [] [].

(** * Properties *)

Section Properties.

Context {engines : Engines}.

(** ** Scalar comparisons *)

Lemma ltS_iff (a b : scalar) : ltS a b = true <-> a < b.
Proof.
  unfold ltS. rewrite negb_true_iff.
  split; intro H.
  - apply Qnot_le_lt. intro Hle. apply Qle_bool_iff in Hle. congruence.
  - destruct (Qle_bool b a) eqn:E; [|reflexivity].
    apply Qle_bool_iff in E. exfalso. apply (Qlt_not_le _ _ H E).
Qed.

Lemma leS_iff (a b : scalar) : leS a b = true <-> a <= b.
Proof. unfold leS. apply Qle_bool_iff. Qed.

Lemma geS_iff (a b : scalar) : geS a b = true <-> b <= a.
Proof. unfold geS. apply Qle_bool_iff. Qed.

Lemma ltS_false_iff (a b : scalar) : ltS a b = false <-> b <= a.
Proof.
  unfold ltS. rewrite negb_false_iff. apply Qle_bool_iff.
Qed.

Lemma leS_false_iff (a b : scalar) : leS a b = false <-> b < a.
Proof.
  rewrite <- ltS_iff. unfold ltS, leS.
  destruct (Qle_bool a b); simpl; split; congruence.
Qed.

(** ** The three band predicates *)

Lemma isAMixedCell_true (s : plicVofSolving) (cellI : label) (a : scalar) :
  nth_error (alpha1In_ s) cellI = Some a ->
  (isAMixedCell s cellI = Some true <->
   surfCellTol_ s < a /\ a < 1 - surfCellTol_ s).
Proof.
  intro Ha. unfold isAMixedCell. rewrite Ha.
  rewrite <- !ltS_iff, <- andb_true_iff.
  split; [intro H; injection H; auto | intro H; f_equal; exact H].
Qed.

Lemma isAnEmptyCell_true (s : plicVofSolving) (cellI : label) (a : scalar) :
  nth_error (alpha1In_ s) cellI = Some a ->
  (isAnEmptyCell s cellI = Some true <-> a <= surfCellTol_ s).
Proof.
  intro Ha. unfold isAnEmptyCell. rewrite Ha. rewrite <- leS_iff.
  split; [intro H; injection H; auto | intro H; f_equal; exact H].
Qed.

Lemma isAFullCell_true (s : plicVofSolving) (cellI : label) (a : scalar) :
  nth_error (alpha1In_ s) cellI = Some a ->
  (isAFullCell s cellI = Some true <-> 1 - surfCellTol_ s <= a).
Proof.
  intro Ha. unfold isAFullCell. rewrite Ha. rewrite <- geS_iff.
  split; [intro H; injection H; auto | intro H; f_equal; exact H].
Qed.

Lemma band_cases (tol a : scalar) :
  (leS a tol = true \/ (ltS tol a && ltS a (1 - tol)) = true \/ geS a (1 - tol) = true).
Proof.
  destruct (Qlt_le_dec tol a) as [H1|H1].
  - destruct (Qlt_le_dec a (1 - tol)) as [H2|H2].
    + right; left. apply andb_true_iff. split; apply ltS_iff; assumption.
    + right; right. apply geS_iff; assumption.
  - left. apply leS_iff; assumption.
Qed.

(** ** Clearing of the interface data *)

Lemma resize_length {T : Type} (fresh : label -> T) (n : label) (l : list T) :
  length (resize fresh n l) = n.
Proof.
  unfold resize. rewrite length_app, length_firstn, length_map, length_seq. lia.
Qed.

Lemma assignAll_repeat {T : Type} (v : T) (l : list T) :
  assignAll v l = repeat v (length l).
Proof.
  unfold assignAll. induction l as [|x l IH]; simpl; [reflexivity|].
  rewrite IH. reflexivity.
Qed.

Lemma clearPlicInterfaceData_fields (fresh : label -> bool) (s : plicVofSolving) :
  let s' := exec (clearPlicInterfaceData fresh) s in
  mixedCells_ s' = [] /\ cellStatus_ s' = [] /\
  bsFaces_ s' = [] /\ bsUn0_ s' = [] /\ bsInterface0_ s' = [] /\
  checkBounding_ s' =
    assignAll false (if topoChanging (mesh_ s)
                     then resize fresh (nCells (mesh_ s)) (checkBounding_ s)
                     else checkBounding_ s) /\
  cellIsBounded_ s' =
    assignAll false (if topoChanging (mesh_ s)
                     then resize fresh (nCells (mesh_ s)) (cellIsBounded_ s)
                     else cellIsBounded_ s).
Proof.
  unfold clearPlicInterfaceData, exec, bind, modify, gets, when, ret. simpl.
  destruct (topoChanging (mesh_ s)); simpl; repeat split; reflexivity.
Qed.

Lemma clearPlicInterfaceData_frame (fresh : label -> bool) (s : plicVofSolving) :
  let s' := exec (clearPlicInterfaceData fresh) s in
  mesh_ s' = mesh_ s /\ alpha1In_ s' = alpha1In_ s /\
  plicInterfaceField_ s' = plicInterfaceField_ s /\
  phi_ s' = phi_ s /\ U_ s' = U_ s /\ dVf_ s' = dVf_ s /\
  nAlphaBounds_ s' = nAlphaBounds_ s /\ surfCellTol_ s' = surfCellTol_ s.
Proof.
  unfold clearPlicInterfaceData, exec, bind, modify, gets, when, ret. simpl.
  destruct (topoChanging (mesh_ s)); simpl; repeat split; reflexivity.
Qed.

(** C7: when the mesh reports a topology change, [clearPlicInterfaceData]
    empties the mixed-cell list, the cell-status list, the boundary-face list,
    the boundary interface-speed list and the boundary interface cache, and
    leaves both bounding flag arrays with exactly [nCells] entries, all
    false: nothing of the old interface data survives. *)
Theorem topology_change_clears_all_caches
  (fresh : label -> bool) (s : plicVofSolving)
  (Htopo : topoChanging (mesh_ s) = true) :
  let s' := exec (clearPlicInterfaceData fresh) s in
  mixedCells_ s' = [] /\ cellStatus_ s' = [] /\
  bsFaces_ s' = [] /\ bsUn0_ s' = [] /\ bsInterface0_ s' = [] /\
  checkBounding_ s' = repeat false (nCells (mesh_ s)) /\
  cellIsBounded_ s' = repeat false (nCells (mesh_ s)).
Proof.
  destruct (clearPlicInterfaceData_fields fresh s)
    as (H1 & H2 & H3 & H4 & H5 & H6 & H7).
  rewrite Htopo in H6, H7.
  rewrite assignAll_repeat, resize_length in H6, H7.
  cbv zeta. repeat split; assumption.
Qed.

(** C10: whatever the mesh reports, [clearPlicInterfaceData] empties the
    boundary interface cache, the boundary-face list and the boundary-speed
    list and sets every bounding flag to false; the mesh's topology report
    decides only the size of the two flag arrays: [nCells] after a change,
    the old size otherwise. *)
Theorem clearing_is_unconditional_resizing_is_not
  (fresh : label -> bool) (s : plicVofSolving) :
  let s' := exec (clearPlicInterfaceData fresh) s in
  bsInterface0_ s' = [] /\ bsFaces_ s' = [] /\ bsUn0_ s' = [] /\
  checkBounding_ s' =
    repeat false (if topoChanging (mesh_ s) then nCells (mesh_ s)
                  else length (checkBounding_ s)) /\
  cellIsBounded_ s' =
    repeat false (if topoChanging (mesh_ s) then nCells (mesh_ s)
                  else length (cellIsBounded_ s)).
Proof.
  destruct (clearPlicInterfaceData_fields fresh s)
    as (H1 & H2 & H3 & H4 & H5 & H6 & H7).
  rewrite assignAll_repeat in H6, H7.
  cbv zeta. repeat split; try assumption.
  - rewrite H6. destruct (topoChanging (mesh_ s)); [rewrite resize_length|]; reflexivity.
  - rewrite H7. destruct (topoChanging (mesh_ s)); [rewrite resize_length|]; reflexivity.
Qed.

(** ** The mass flux *)

Lemma nth_error_addField (f g : surfaceScalarField) (i : label) (x y : scalar) :
  nth_error f i = Some x -> nth_error g i = Some y ->
  nth_error (addField f g) i = Some (x + y).
Proof.
  revert g i. induction f as [|a f IH]; intros g i Hf Hg.
  - destruct i; discriminate.
  - destruct g as [|b g]; [destruct i; discriminate|].
    destruct i as [|i]; simpl in *.
    + injection Hf as ->. injection Hg as ->. reflexivity.
    + apply IH; assumption.
Qed.

Lemma addField_length (f g : surfaceScalarField) :
  length (addField f g) = Nat.min (length f) (length g).
Proof.
  revert g. induction f as [|a f IH]; intros [|b g]; simpl; auto.
Qed.

(** C8: for all densities and every face, the field returned by [getRhoPhi]
    holds [(rho1 - rho2) * dVf / deltaT + rho2 * phi] at that face, it has one
    value per face, and the call leaves the object as it was. *)
Theorem getRhoPhi_is_density_weighted_flux (rho1 rho2 : scalar) (s : plicVofSolving) :
  exec (getRhoPhi rho1 rho2) s = s /\
  (forall (faceI : label) (dV p : scalar),
      nth_error (dVf_ s) faceI = Some dV ->
      nth_error (phi_ s) faceI = Some p ->
      nth_error (eval (getRhoPhi rho1 rho2) s) faceI
      = Some ((rho1 - rho2) * dV / deltaT (mesh_ s) + rho2 * p)) /\
  length (eval (getRhoPhi rho1 rho2) s)
  = Nat.min (length (dVf_ s)) (length (phi_ s)).
Proof.
  unfold getRhoPhi, exec, eval, gets. simpl. split; [reflexivity|]. split.
  - intros faceI dV p HdV Hp.
    apply nth_error_addField.
    + unfold divField, scaleField.
      apply (map_nth_error (fun x => x / deltaT (mesh_ s))).
      apply (map_nth_error (fun x => (rho1 - rho2) * x)). exact HdV.
    + unfold scaleField. apply (map_nth_error (fun x => rho2 * x)). exact Hp.
  - rewrite addField_length. unfold divField, scaleField.
    rewrite !length_map. reflexivity.
Qed.

(** ** Coverage and exclusivity of the bands *)

(** C9: for a cell that holds a fraction value, at least one of the three
    band predicates answers true; when the tolerance is below one half
    exactly one does; when the tolerance is one half or more, a cell whose
    fraction is one half is empty and full at once. *)
Theorem bands_cover_and_partition_below_half :
  (forall (s : plicVofSolving) (cellI : label) (a : scalar),
      nth_error (alpha1In_ s) cellI = Some a ->
      isAnEmptyCell s cellI = Some true \/
      isAMixedCell s cellI = Some true \/
      isAFullCell s cellI = Some true) /\
  (forall (s : plicVofSolving) (cellI : label) (a : scalar),
      nth_error (alpha1In_ s) cellI = Some a ->
      surfCellTol_ s < 1 # 2 ->
      bandsHolding s cellI = 1%nat) /\
  (forall (s : plicVofSolving) (cellI : label) (a : scalar),
      nth_error (alpha1In_ s) cellI = Some a ->
      1 # 2 <= surfCellTol_ s ->
      a == 1 # 2 ->
      isAnEmptyCell s cellI = Some true /\ isAFullCell s cellI = Some true).
Proof.
  split; [|split].
  - intros s cellI a Ha.
    unfold isAnEmptyCell, isAMixedCell, isAFullCell. rewrite Ha.
    destruct (band_cases (surfCellTol_ s) a) as [H|[H|H]]; rewrite H; auto.
  - intros s cellI a Ha Htol.
    unfold bandsHolding, isAnEmptyCell, isAMixedCell, isAFullCell. rewrite Ha.
    destruct (leS a (surfCellTol_ s)) eqn:E1;
      destruct (ltS (surfCellTol_ s) a) eqn:E2;
      destruct (ltS a (1 - surfCellTol_ s)) eqn:E3;
      destruct (geS a (1 - surfCellTol_ s)) eqn:E4; simpl; try reflexivity;
      exfalso;
      repeat match goal with
      | H : leS _ _ = true |- _ => apply leS_iff in H
      | H : leS _ _ = false |- _ => apply leS_false_iff in H
      | H : ltS _ _ = true |- _ => apply ltS_iff in H
      | H : ltS _ _ = false |- _ => apply ltS_false_iff in H
      | H : geS _ _ = true |- _ => apply geS_iff in H
      | H : geS _ _ = false |- _ => apply leS_false_iff in H
      end; lra.
  - intros s cellI a Ha Htol Hhalf. split.
    + apply (isAnEmptyCell_true s cellI _ Ha). lra.
    + apply (isAFullCell_true s cellI _ Ha). lra.
Qed.

(** ** Classification *)

Lemma exec_bind {S A B : Type} (m : State S A) (k : A -> State S B) (s : S) :
  exec (bind m k) s = exec (k (eval m s)) (exec m s).
Proof. unfold exec, eval, bind. destruct (m s). reflexivity. Qed.

Lemma eval_bind {S A B : Type} (m : State S A) (k : A -> State S B) (s : S) :
  eval (bind m k) s = eval (k (eval m s)) (exec m s).
Proof. unfold exec, eval, bind. destruct (m s). reflexivity. Qed.

Lemma set_mixedCells_same (s : plicVofSolving) :
  set_mixedCells (mixedCells_ s) s = s.
Proof. destruct s. reflexivity. Qed.

Lemma exec_appendIfMixed (c : label) (s : plicVofSolving) :
  exec (appendIfMixed c) s
  = if isMixedLabel s c then set_mixedCells (mixedCells_ s ++ [c]) s else s.
Proof.
  unfold appendIfMixed, isMixedLabel, exec, bind, gets, modify, ret.
  destruct (isAMixedCell s c) as [[|]|]; reflexivity.
Qed.

Lemma isMixedLabel_set_mixedCells (v : DynamicLabelList) (s : plicVofSolving) (c : label) :
  isMixedLabel (set_mixedCells v s) c = isMixedLabel s c.
Proof. reflexivity. Qed.

Lemma scan_appends_mixed (l : list label) (s : plicVofSolving) :
  exec (forEach l appendIfMixed) s
  = set_mixedCells (mixedCells_ s ++ filter (isMixedLabel s) l) s.
Proof.
  revert s. induction l as [|c l IH]; intro s.
  - simpl. rewrite app_nil_r. unfold exec, ret. simpl.
    symmetry. apply set_mixedCells_same.
  - simpl forEach. rewrite exec_bind, IH, exec_appendIfMixed.
    simpl filter. destruct (isMixedLabel s c) eqn:E.
    + rewrite (filter_ext _ _ (isMixedLabel_set_mixedCells _ s)).
      simpl mixedCells_. rewrite <- app_assoc. reflexivity.
    + reflexivity.
Qed.

Lemma exec_gets {A B : Type} (f : plicVofSolving -> A) (k : A -> Solver B)
  (s : plicVofSolving) :
  exec (bind (gets f) k) s = exec (k (f s)) s.
Proof. reflexivity. Qed.

Lemma exec_getMixedCellList (fresh : label -> bool) (s : plicVofSolving) :
  exec (getMixedCellList fresh) s
  = set_mixedCells (filter (isMixedLabel s) (seq 0 (length (alpha1In_ s))))
      (exec (clearPlicInterfaceData fresh) s).
Proof.
  unfold getMixedCellList. rewrite exec_bind, exec_gets, scan_appends_mixed.
  destruct (clearPlicInterfaceData_fields fresh s) as (Hm & _).
  destruct (clearPlicInterfaceData_frame fresh s)
    as (_ & Ha & _ & _ & _ & _ & _ & Ht).
  cbv zeta in Hm, Ha, Ht.
  rewrite Hm, Ha. simpl app. f_equal.
  apply filter_ext. intro c. unfold isMixedLabel, isAMixedCell.
  rewrite Ha, Ht. reflexivity.
Qed.

Lemma getMixedCellList_mixedCells (fresh : label -> bool) (s : plicVofSolving) :
  mixedCells_ (exec (getMixedCellList fresh) s)
  = filter (isMixedLabel s) (seq 0 (length (alpha1In_ s))).
Proof. rewrite exec_getMixedCellList. reflexivity. Qed.

(** C5: a cell is mixed exactly when its fraction lies strictly between the
    tolerance bounds, empty exactly when it is at most [surfCellTol_], full
    exactly when it is at least [1 - surfCellTol_]; and the mixed-cell list
    built by the classification holds, once each, exactly the labels of the
    cells in the strict mixed band. *)
Theorem classification_by_tolerance_band :
  (forall (s : plicVofSolving) (cellI : label) (a : scalar),
      nth_error (alpha1In_ s) cellI = Some a ->
      (isAMixedCell s cellI = Some true <->
       surfCellTol_ s < a /\ a < 1 - surfCellTol_ s) /\
      (isAnEmptyCell s cellI = Some true <-> a <= surfCellTol_ s) /\
      (isAFullCell s cellI = Some true <-> a >= 1 - surfCellTol_ s)) /\
  (forall (fresh : label -> bool) (s : plicVofSolving) (cellI : label),
      In cellI (mixedCells_ (exec (getMixedCellList fresh) s)) <->
      exists a : scalar,
        nth_error (alpha1In_ s) cellI = Some a /\
        surfCellTol_ s < a /\ a < 1 - surfCellTol_ s) /\
  (forall (fresh : label -> bool) (s : plicVofSolving),
      NoDup (mixedCells_ (exec (getMixedCellList fresh) s))).
Proof.
  split; [|split].
  - intros s cellI a Ha. split; [|split].
    + apply isAMixedCell_true; assumption.
    + apply isAnEmptyCell_true; assumption.
    + apply isAFullCell_true; assumption.
  - intros fresh s cellI. rewrite getMixedCellList_mixedCells, filter_In, in_seq.
    unfold isMixedLabel. split.
    + intros [_ H]. destruct (isAMixedCell s cellI) as [[|]|] eqn:E; try discriminate.
      destruct (nth_error (alpha1In_ s) cellI) as [a|] eqn:Ha.
      * exists a. split; [reflexivity|].
        apply (isAMixedCell_true s cellI a Ha). exact E.
      * unfold isAMixedCell in E. rewrite Ha in E. discriminate.
    + intros (a & Ha & Hband).
      split.
      * split; [lia|]. simpl. apply nth_error_Some. rewrite Ha. discriminate.
      * apply (isAMixedCell_true s cellI a Ha) in Hband. rewrite Hband. reflexivity.
  - intros fresh s. rewrite getMixedCellList_mixedCells.
    apply NoDup_filter, seq_NoDup.
Qed.

(** ** Unfolding equations of the modelled operations *)

Lemma exec_storeBoundaryInterfaces (s : plicVofSolving) :
  exec storeBoundaryInterfaces s
  = set_bsUn0 (bsUn0_ s ++ map (fun e => snd (snd e)) (newSnapshots s))
      (set_bsInterface0
         (bsInterface0_ s ++ map (fun e => fst (snd e)) (newSnapshots s))
         (set_bsFaces (bsFaces_ s ++ map fst (newSnapshots s)) s)).
Proof. reflexivity. Qed.

Lemma eval_timeIntegratedFlux (dt : scalar) (s : plicVofSolving) :
  eval (timeIntegratedFlux dt) s = rawFluxes dt (exec storeBoundaryInterfaces s).
Proof. reflexivity. Qed.

Lemma exec_timeIntegratedFlux (dt : scalar) (s : plicVofSolving) :
  exec (timeIntegratedFlux dt) s = exec storeBoundaryInterfaces s.
Proof. reflexivity. Qed.

Lemma exec_subCycle (dt : scalar) (s : plicVofSolving) :
  exec (subCycle dt) s
  = let s1 := exec storeBoundaryInterfaces s in
    let lim := limitFluxes s1 (rawFluxes dt s1) in
    set_dVf (addField (dVf_ s1) lim) (set_alpha1In (updateFraction s1 lim) s1).
Proof. reflexivity. Qed.

Lemma exec_applyBruteForceBounding (s : plicVofSolving) :
  exec applyBruteForceBounding s = set_alpha1In (map clamp01 (alpha1In_ s)) s.
Proof. reflexivity. Qed.

Lemma exec_advection (subIntervals : list scalar) (s : plicVofSolving) :
  exec (advection subIntervals) s
  = exec applyBruteForceBounding
      (exec (forEach subIntervals subCycle)
            (set_dVf (map (fun _ => 0) (faces (mesh_ s))) s)).
Proof.
  unfold advection. rewrite exec_bind, exec_bind. reflexivity.
Qed.

Lemma exec_reconstruction (s : plicVofSolving) :
  exec reconstruction s
  = set_plicInterfaceField
      (map (reconstructCell s) (labelled (plicInterfaceField_ s))) s.
Proof. reflexivity. Qed.

Lemma exec_advanceTimestep (fresh : label -> bool) (subIntervals : list scalar)
  (s : plicVofSolving) :
  exec (advanceTimestep fresh subIntervals) s
  = exec (advection subIntervals)
      (exec reconstruction (exec (getMixedCellList fresh) s)).
Proof.
  unfold advanceTimestep. rewrite exec_bind, exec_bind. reflexivity.
Qed.

Lemma exec_forEach_cons {S A : Type} (x : A) (l : list A)
  (body : A -> State S unit) (s : S) :
  exec (forEach (x :: l) body) s = exec (forEach l body) (exec (body x) s).
Proof. simpl. rewrite exec_bind. reflexivity. Qed.

(** ** Boundedness of the fraction field *)

Lemma clamp01_bounds (a : scalar) : inUnitInterval (clamp01 a).
Proof.
  unfold inUnitInterval, clamp01. split.
  - apply Q.min_glb; [lra | apply Q.le_max_l].
  - apply Q.le_min_l.
Qed.

Lemma clamp01_fixes (a : scalar) : inUnitInterval a -> clamp01 a == a.
Proof.
  intros [H0 H1]. unfold clamp01.
  rewrite (Q.max_r 0 a H0). apply Q.min_r. exact H1.
Qed.

Lemma labelled_length {T : Type} (l : list T) : length (labelled l) = length l.
Proof.
  unfold labelled. rewrite length_combine, length_seq. apply Nat.min_id.
Qed.

Lemma updateFraction_length (s : plicVofSolving) (dVf : surfaceScalarField) :
  length (updateFraction s dVf) = length (alpha1In_ s).
Proof. unfold updateFraction. rewrite length_map. apply labelled_length. Qed.

Lemma subCycle_keeps_cells (dt : scalar) (s : plicVofSolving) :
  length (alpha1In_ (exec (subCycle dt) s)) = length (alpha1In_ s).
Proof.
  rewrite exec_subCycle. cbv zeta. simpl alpha1In_.
  rewrite updateFraction_length. reflexivity.
Qed.

Lemma subCycles_keep_cells (subIntervals : list scalar) (s : plicVofSolving) :
  length (alpha1In_ (exec (forEach subIntervals subCycle) s))
  = length (alpha1In_ s).
Proof.
  revert s. induction subIntervals as [|dt l IH]; intro s; [reflexivity|].
  rewrite exec_forEach_cons, IH. apply subCycle_keeps_cells.
Qed.

Lemma advection_keeps_cells (subIntervals : list scalar) (s : plicVofSolving) :
  length (alpha1In_ (exec (advection subIntervals) s)) = length (alpha1In_ s).
Proof.
  rewrite exec_advection, exec_applyBruteForceBounding. simpl alpha1In_.
  rewrite length_map, subCycles_keep_cells. reflexivity.
Qed.

Lemma advection_bounded (subIntervals : list scalar) (s : plicVofSolving) :
  Forall inUnitInterval (alpha1In_ (exec (advection subIntervals) s)).
Proof.
  rewrite exec_advection, exec_applyBruteForceBounding. simpl alpha1In_.
  apply Forall_map. apply Forall_forall. intros a _. apply clamp01_bounds.
Qed.

(** C1: after a completed advection call (the sub-cycles with their limiter
    passes, then the brute-force bounding) the fraction field still has one
    value per cell and every value lies in [0,1]; the same holds after a whole
    timestep (classification, reconstruction, advection). *)
Theorem fraction_in_unit_interval_after_advection
  (fresh : label -> bool) (subIntervals : list scalar) (s : plicVofSolving) :
  (length (alpha1In_ (exec (advection subIntervals) s)) = length (alpha1In_ s) /\
   Forall inUnitInterval (alpha1In_ (exec (advection subIntervals) s))) /\
  (length (alpha1In_ (exec (advanceTimestep fresh subIntervals) s))
   = length (alpha1In_ s) /\
   Forall inUnitInterval
     (alpha1In_ (exec (advanceTimestep fresh subIntervals) s))).
Proof.
  split; split.
  - apply advection_keeps_cells.
  - apply advection_bounded.
  - rewrite exec_advanceTimestep, advection_keeps_cells, exec_reconstruction.
    simpl alpha1In_. rewrite exec_getMixedCellList. simpl alpha1In_.
    f_equal. apply (clearPlicInterfaceData_frame fresh s).
  - rewrite exec_advanceTimestep. apply advection_bounded.
Qed.

(** ** Zero flux and zero velocity *)

Lemma readScalar_zero (f : list scalar) (i : label) :
  zeroField f -> readScalar f i == 0.
Proof.
  intro H. unfold readScalar.
  destruct (nth_in_or_default i f 0) as [Hin|Hd].
  - exact (proj1 (Forall_forall _ f) H _ Hin).
  - rewrite Hd. reflexivity.
Qed.

Lemma readVector_zero (f : list vector) (i : label) :
  zeroVectorField f -> zeroVector (readVector f i).
Proof.
  intro H. unfold readVector.
  destruct (nth_in_or_default i f (0, 0, 0)) as [Hin|Hd].
  - exact (proj1 (Forall_forall _ f) H _ Hin).
  - rewrite Hd. unfold zeroVector. simpl. repeat split; reflexivity.
Qed.

Lemma dot_zero (u v : vector) : zeroVector u -> dot u v == 0.
Proof.
  destruct u as [[ux uy] uz], v as [[vx vy] vz].
  unfold zeroVector, dot. simpl. intros (Hx & Hy & Hz).
  rewrite Hx, Hy, Hz. ring.
Qed.

Lemma sweptVolume_zero (faceI : label) (p : plicInterface) (un dt : scalar) :
  un == 0 -> sweptVolume faceI p un dt == 0.
Proof.
  intro H. unfold sweptVolume. cbv zeta.
  assert (E : un * dt == 0) by (rewrite H; ring).
  transitivity (clippedArea faceI p (un * dt) * 0).
  - apply Qmult_comp; [reflexivity | exact E].
  - ring.
Qed.

Lemma cached_speed_zero (s : plicVofSolving) (faceI : label)
  (p : plicInterface) (un : scalar) :
  zeroField (bsUn0_ s) -> cachedInterface s faceI = Some (p, un) -> un == 0.
Proof.
  intros Hz Hc. unfold cachedInterface in Hc.
  destruct (find _ _) as [e|] eqn:Hf; [|discriminate].
  simpl in Hc. injection Hc as Hc.
  apply find_some in Hf. destruct Hf as [Hin _].
  apply in_rev in Hin. unfold boundaryCache in Hin.
  destruct e as [k [p' un']]. simpl in Hc. injection Hc as -> ->.
  apply in_combine_r in Hin. apply in_combine_r in Hin.
  exact (proj1 (Forall_forall _ _) Hz _ Hin).
Qed.

Lemma statusTransport_zero (s : plicVofSolving) (dt : scalar)
  (faceI : label) (fc : face) (c : label) :
  zeroField (phi_ s) -> zeroVectorField (U_ s) ->
  statusTransport s dt faceI fc c == 0.
Proof.
  intros Hphi HU. unfold statusTransport.
  destruct (cellStatus s c) as [[| |]|]; try reflexivity.
  - destruct (nth_error _ _); [|reflexivity].
    apply sweptVolume_zero, dot_zero, readVector_zero, HU.
  - rewrite (readScalar_zero _ faceI Hphi). ring.
Qed.

Lemma upwindTransport_zero (s : plicVofSolving) (dt : scalar)
  (faceI : label) (fc : face) :
  zeroField (phi_ s) -> zeroVectorField (U_ s) ->
  upwindTransport s dt faceI fc == 0.
Proof.
  intros Hphi HU. unfold upwindTransport.
  destruct (upwindCell fc _); apply statusTransport_zero; assumption.
Qed.

Lemma faceTransport_zero (s : plicVofSolving) (dt : scalar)
  (faceI : label) (fc : face) :
  zeroField (phi_ s) -> zeroVectorField (U_ s) -> zeroField (bsUn0_ s) ->
  faceTransport s dt faceI fc == 0.
Proof.
  intros Hphi HU Hc. unfold faceTransport.
  destruct (faceNeighbour fc).
  - apply upwindTransport_zero; assumption.
  - destruct (cachedInterface s faceI) as [[p un]|] eqn:E.
    + apply sweptVolume_zero. exact (cached_speed_zero s faceI p un Hc E).
    + apply upwindTransport_zero; assumption.
Qed.

Lemma rawFluxes_zero (dt : scalar) (s : plicVofSolving) :
  zeroField (phi_ s) -> zeroVectorField (U_ s) -> zeroField (bsUn0_ s) ->
  zeroField (rawFluxes dt s).
Proof.
  intros Hphi HU Hc. unfold rawFluxes, zeroField.
  apply Forall_map, Forall_forall. intros lf _.
  apply faceTransport_zero; assumption.
Qed.

Lemma rawFluxes_length (dt : scalar) (s : plicVofSolving) :
  length (rawFluxes dt s) = length (faces (mesh_ s)).
Proof. unfold rawFluxes. rewrite length_map. apply labelled_length. Qed.

Lemma collect_Forall {A B : Type} (f : A -> option B) (P : B -> Prop) (l : list A) :
  (forall x y, f x = Some y -> P y) -> Forall P (collect f l).
Proof.
  intro H. induction l as [|x l IH]; simpl; [constructor|].
  destruct (f x) as [y|] eqn:E; [constructor; [apply (H x y E) | exact IH] | exact IH].
Qed.

Lemma newSnapshots_speed_zero (s : plicVofSolving) :
  zeroVectorField (U_ s) ->
  Forall (fun e => snd (snd e) == 0) (newSnapshots s).
Proof.
  intro HU. unfold newSnapshots. apply collect_Forall.
  intros [faceI fc] e He. unfold boundarySnapshot in He.
  destruct (faceNeighbour fc); [discriminate|].
  destruct (cellStatus s (faceOwner fc)) as [[| |]|]; try discriminate.
  destruct (nth_error (plicInterfaceField_ s) (faceOwner fc)); [|discriminate].
  destruct (fluxesOutOf _ _ _); [|discriminate].
  injection He as <-. simpl. apply dot_zero, readVector_zero, HU.
Qed.

Lemma storeBoundaryInterfaces_speed_zero (s : plicVofSolving) :
  zeroVectorField (U_ s) -> zeroField (bsUn0_ s) ->
  zeroField (bsUn0_ (exec storeBoundaryInterfaces s)).
Proof.
  intros HU Hc. rewrite exec_storeBoundaryInterfaces. simpl bsUn0_.
  unfold zeroField. apply Forall_app. split; [exact Hc|].
  apply Forall_map. exact (newSnapshots_speed_zero s HU).
Qed.

Lemma sum_zero {A : Type} (g : A -> scalar) (l : list A) :
  (forall x, In x l -> g x == 0) -> fold_right Qplus 0 (map g l) == 0.
Proof.
  induction l as [|x l IH]; intro H; simpl; [reflexivity|].
  rewrite (H x (or_introl eq_refl)), IH.
  - ring.
  - intros y Hy. apply H. right. exact Hy.
Qed.

Lemma leavingThrough_zero (cellI : label) (fc : face) (v : scalar) :
  v == 0 -> leavingThrough cellI fc v == 0.
Proof.
  intro H. unfold leavingThrough.
  destruct (Nat.eqb (faceOwner fc) cellI);
    destruct (faceNeighbour fc) as [nb|];
    try destruct (Nat.eqb nb cellI); lra.
Qed.

Lemma netFlux_zero (m : fvMesh) (dVf : surfaceScalarField) (cellI : label) :
  zeroField dVf -> netFlux m dVf cellI == 0.
Proof.
  intro H. unfold netFlux. apply sum_zero. intros lf _.
  apply leavingThrough_zero, readScalar_zero, H.
Qed.

Lemma Forall_labelled {T : Type} (P : T -> Prop) (l : list T) :
  Forall P l -> Forall (fun lx => P (snd lx)) (labelled l).
Proof.
  intro H. apply Forall_forall. intros [i x] Hin. simpl.
  unfold labelled in Hin. apply in_combine_r in Hin.
  exact (proj1 (Forall_forall _ _) H _ Hin).
Qed.

Lemma limitCell_zero (s : plicVofSolving) (cellI : label)
  (acc : surfaceScalarField * boolList) :
  zeroField (fst acc) -> zeroField (fst (limitCell s cellI acc)).
Proof.
  destruct acc as [dVf corrected]. simpl. intro H. unfold limitCell.
  destruct (outsideUnitInterval _); [|exact H].
  simpl. unfold zeroField. apply Forall_map.
  apply (Forall_impl _ (P := fun lx => snd lx == 0));
    [|exact (Forall_labelled (fun x => x == 0) dVf H)].
  intros [i v] Hv. simpl in *.
  destruct (_ && _); [rewrite Hv; ring | exact Hv].
Qed.

Lemma limitCell_length (s : plicVofSolving) (cellI : label)
  (acc : surfaceScalarField * boolList) :
  length (fst (limitCell s cellI acc)) = length (fst acc).
Proof.
  destruct acc as [dVf corrected]. unfold limitCell.
  destruct (outsideUnitInterval _); [|reflexivity].
  simpl. rewrite length_map. apply labelled_length.
Qed.

Lemma limitPass_zero (s : plicVofSolving) (acc : surfaceScalarField * boolList) :
  zeroField (fst acc) -> zeroField (fst (limitPass s acc)).
Proof.
  unfold limitPass. generalize (seq 0 (length (alpha1In_ s))). intro cells.
  revert acc. induction cells as [|c cells IH]; intros acc H; simpl; [exact H|].
  apply IH, limitCell_zero, H.
Qed.

Lemma limitPass_length (s : plicVofSolving) (acc : surfaceScalarField * boolList) :
  length (fst (limitPass s acc)) = length (fst acc).
Proof.
  unfold limitPass. generalize (seq 0 (length (alpha1In_ s))). intro cells.
  revert acc. induction cells as [|c cells IH]; intro acc; simpl; [reflexivity|].
  rewrite IH. apply limitCell_length.
Qed.

Lemma limitFluxes_zero (s : plicVofSolving) (dVf : surfaceScalarField) :
  zeroField dVf -> zeroField (limitFluxes s dVf).
Proof.
  intro H. unfold limitFluxes.
  induction (nAlphaBounds_ s) as [|n IH]; simpl; [exact H|].
  apply limitPass_zero, IH.
Qed.

Lemma limitFluxes_length (s : plicVofSolving) (dVf : surfaceScalarField) :
  length (limitFluxes s dVf) = length dVf.
Proof.
  unfold limitFluxes.
  induction (nAlphaBounds_ s) as [|n IH]; simpl; [reflexivity|].
  rewrite limitPass_length. exact IH.
Qed.

Lemma sameField_labelled_map (g : label * scalar -> scalar) (l : list scalar)
  (start : nat) :
  (forall i a, g (i, a) == a) ->
  sameField (map g (combine (seq start (length l)) l)) l.
Proof.
  intro H. revert start. induction l as [|a l IH]; intro start; simpl.
  - constructor.
  - constructor; [apply H | apply IH].
Qed.

Lemma sameField_trans (f g h : list scalar) :
  sameField f g -> sameField g h -> sameField f h.
Proof.
  intro H. revert h. induction H as [|x y f g Hxy _ IH]; intros h Hgh.
  - inversion Hgh. constructor.
  - inversion Hgh as [|y' z g' h' Hyz Hrest]; subst.
    constructor; [rewrite Hxy; exact Hyz | apply IH; exact Hrest].
Qed.

Lemma updateFraction_zero (s : plicVofSolving) (dVf : surfaceScalarField) :
  zeroField dVf -> sameField (updateFraction s dVf) (alpha1In_ s).
Proof.
  intro H. unfold updateFraction, labelled.
  apply sameField_labelled_map. intros i a. simpl.
  rewrite (netFlux_zero (mesh_ s) dVf i H). unfold Qdiv. ring.
Qed.

Lemma addField_zero (f g : surfaceScalarField) :
  zeroField f -> zeroField g -> zeroField (addField f g).
Proof.
  intro Hf. revert g. induction Hf as [|x f Hx _ IH]; intros g Hg.
  - constructor.
  - destruct Hg as [|y g Hy Hg]; simpl; [constructor|].
    constructor; [rewrite Hx, Hy; ring | apply IH; exact Hg].
Qed.

Lemma subCycle_atRest (alpha0 : scalarField) (dt : scalar) (s : plicVofSolving) :
  atRest alpha0 s -> atRest alpha0 (exec (subCycle dt) s).
Proof.
  intros (Hphi & HU & Hc & Hd & Hlen & Ha).
  pose proof (storeBoundaryInterfaces_speed_zero s HU Hc) as Hc1.
  rewrite exec_subCycle. cbv zeta.
  set (s1 := exec storeBoundaryInterfaces s) in *.
  assert (Hraw : zeroField (rawFluxes dt s1))
    by (apply rawFluxes_zero; assumption).
  pose proof (limitFluxes_zero s1 _ Hraw) as Hlim.
  unfold atRest. simpl phi_. simpl U_. simpl bsUn0_. simpl dVf_.
  simpl alpha1In_. simpl mesh_.
  repeat split; try assumption.
  - apply addField_zero; assumption.
  - rewrite addField_length, limitFluxes_length, rawFluxes_length.
    change (dVf_ s1) with (dVf_ s). change (mesh_ s1) with (mesh_ s).
    rewrite Hlen. apply Nat.min_id.
  - apply (sameField_trans _ (alpha1In_ s1)); [|exact Ha].
    apply updateFraction_zero. exact Hlim.
Qed.

Lemma subCycles_atRest (alpha0 : scalarField) (subIntervals : list scalar)
  (s : plicVofSolving) :
  atRest alpha0 s -> atRest alpha0 (exec (forEach subIntervals subCycle) s).
Proof.
  revert s. induction subIntervals as [|dt l IH]; intros s H; [exact H|].
  rewrite exec_forEach_cons. apply IH, subCycle_atRest, H.
Qed.

Lemma sameField_refl (f : list scalar) : sameField f f.
Proof. induction f; constructor; [reflexivity | assumption]. Qed.

Lemma clamp_sameField (f alpha0 : list scalar) :
  sameField f alpha0 -> Forall inUnitInterval alpha0 ->
  sameField (map clamp01 f) alpha0.
Proof.
  intro H. induction H as [|x y f g Hxy _ IH]; intro Hb; simpl; [constructor|].
  inversion Hb as [|y' g' Hy Hg]; subst.
  constructor; [|apply IH; exact Hg].
  rewrite clamp01_fixes; [exact Hxy|].
  unfold inUnitInterval in *. rewrite Hxy. exact Hy.
Qed.

Lemma zeros_zeroField {T : Type} (l : list T) :
  zeroField (map (fun _ => 0) l).
Proof. apply Forall_map, Forall_forall. intros; reflexivity. Qed.

Lemma subCycles_keep_mesh (subIntervals : list scalar) (s : plicVofSolving) :
  mesh_ (exec (forEach subIntervals subCycle) s) = mesh_ s.
Proof.
  revert s. induction subIntervals as [|dt l IH]; intro s; [reflexivity|].
  rewrite exec_forEach_cons, IH. reflexivity.
Qed.

Lemma atRest_start (alpha0 : scalarField) (s : plicVofSolving) :
  zeroField (phi_ s) -> zeroVectorField (U_ s) -> bsUn0_ s = [] ->
  sameField (alpha1In_ s) alpha0 ->
  atRest alpha0 (set_dVf (map (fun _ => 0) (faces (mesh_ s))) s).
Proof.
  intros Hphi HU Hc Ha. unfold atRest.
  change (phi_ (set_dVf (map (fun _ => 0) (faces (mesh_ s))) s)) with (phi_ s).
  change (U_ (set_dVf (map (fun _ => 0) (faces (mesh_ s))) s)) with (U_ s).
  change (bsUn0_ (set_dVf (map (fun _ => 0) (faces (mesh_ s))) s)) with (bsUn0_ s).
  change (alpha1In_ (set_dVf (map (fun _ => 0) (faces (mesh_ s))) s))
    with (alpha1In_ s).
  change (dVf_ (set_dVf (map (fun _ => 0) (faces (mesh_ s))) s))
    with (map (fun _ : face => 0) (faces (mesh_ s))).
  change (mesh_ (set_dVf (map (fun _ => 0) (faces (mesh_ s))) s)) with (mesh_ s).
  rewrite Hc. repeat split; try assumption.
  - constructor.
  - apply zeros_zeroField.
  - apply length_map.
Qed.

(** C4: when the supplied flux field and velocity field are zero everywhere,
    a whole timestep (classification, reconstruction, advection over any
    sub-cycles) on a volume-fraction field (values in [0,1]) ends with one
    transport volume per face, each zero, and with the fraction of every
    cell equal to its value before the call. *)
Theorem zero_velocity_invariance
  (fresh : label -> bool) (subIntervals : list scalar) (s : plicVofSolving)
  (Hphi : zeroField (phi_ s))
  (HU : zeroVectorField (U_ s))
  (Halpha : volumeFractionField (alpha1In_ s)) :
  let s' := exec (advanceTimestep fresh subIntervals) s in
  length (dVf_ s') = length (faces (mesh_ s)) /\
  zeroField (dVf_ s') /\
  sameField (alpha1In_ s') (alpha1In_ s).
Proof.
  cbv zeta. rewrite exec_advanceTimestep, exec_advection.
  rewrite exec_applyBruteForceBounding.
  set (s1 := exec reconstruction (exec (getMixedCellList fresh) s)).
  destruct (clearPlicInterfaceData_frame fresh s)
    as (Hm & Ha & _ & Hp & Hu & _).
  destruct (clearPlicInterfaceData_fields fresh s)
    as (_ & _ & _ & Hb & _).
  cbv zeta in Hm, Ha, Hp, Hu, Hb.
  assert (E1 : phi_ s1 = phi_ s).
  { unfold s1. rewrite exec_reconstruction, exec_getMixedCellList. exact Hp. }
  assert (E2 : U_ s1 = U_ s).
  { unfold s1. rewrite exec_reconstruction, exec_getMixedCellList. exact Hu. }
  assert (E3 : alpha1In_ s1 = alpha1In_ s).
  { unfold s1. rewrite exec_reconstruction, exec_getMixedCellList. exact Ha. }
  assert (E4 : bsUn0_ s1 = []).
  { unfold s1. rewrite exec_reconstruction, exec_getMixedCellList. exact Hb. }
  assert (E5 : mesh_ s1 = mesh_ s).
  { unfold s1. rewrite exec_reconstruction, exec_getMixedCellList. exact Hm. }
  assert (H0 : atRest (alpha1In_ s)
                 (set_dVf (map (fun _ => 0) (faces (mesh_ s1))) s1)).
  { apply atRest_start.
    - rewrite E1. exact Hphi.
    - rewrite E2. exact HU.
    - exact E4.
    - rewrite E3. apply sameField_refl. }
  apply (subCycles_atRest _ subIntervals) in H0.
  destruct H0 as (_ & _ & _ & Hd & Hlen & Hsame).
  simpl dVf_. simpl alpha1In_.
  set (s2 := exec (forEach subIntervals subCycle) _) in *.
  assert (E6 : mesh_ s2 = mesh_ s1).
  { unfold s2. rewrite subCycles_keep_mesh. reflexivity. }
  repeat split.
  - rewrite Hlen, E6, E5. reflexivity.
  - exact Hd.
  - apply clamp_sameField; [exact Hsame | exact Halpha].
Qed.

End Properties.

(** * Instances of the theorems *)

Lemma topology_change_clears_all_caches_witness :
  let s' := exec (clearPlicInterfaceData freshTrue) (channel true) in
  mixedCells_ s' = [] /\ cellStatus_ s' = [] /\
  bsFaces_ s' = [] /\ bsUn0_ s' = [] /\ bsInterface0_ s' = [] /\
  checkBounding_ s' = [false; false] /\
  cellIsBounded_ s' = [false; false].
Proof.
  exact (topology_change_clears_all_caches freshTrue (channel true) eq_refl).
Defined.

Lemma bands_partition_witness : bandsHolding (channel false) 1%nat = 1%nat.
Proof.
  apply (proj1 (proj2 bands_cover_and_partition_below_half)
           (channel false) 1%nat (1 # 2)).
  - reflexivity.
  - reflexivity.
Defined.

Lemma classification_witness :
  In 1%nat (mixedCells_ (exec (getMixedCellList freshTrue) (channel false))).
Proof.
  apply (proj1 (proj2 classification_by_tolerance_band)).
  exists (1 # 2). split; [reflexivity|]. split; reflexivity.
Defined.

Lemma getRhoPhi_witness :
  nth_error (eval (getRhoPhi 1000 1) (channel false)) 1%nat
  = Some ((1000 - 1) * - (1 # 4) / 1 + 1 * - (1 # 2)).
Proof.
  apply (proj1 (proj2 (getRhoPhi_is_density_weighted_flux 1000 1 (channel false)))).
  - reflexivity.
  - reflexivity.
Defined.

Lemma zero_velocity_invariance_witness :
  let s' := exec (advanceTimestep (engines := channelEngines)
                    freshTrue [1 # 2; 1 # 2]) restingChannel in
  length (dVf_ s') = 3%nat /\
  zeroField (dVf_ s') /\
  sameField (alpha1In_ s') [1; 1 # 2].
Proof.
  apply (zero_velocity_invariance (engines := channelEngines)
           freshTrue [1 # 2; 1 # 2] restingChannel).
  - repeat constructor.
  - repeat constructor.
  - repeat constructor; discriminate.
Defined.


(** * Further properties of the inline member functions *)

(** ** The band predicates *)

Lemma geS_false_iff (a b : scalar) : geS a b = false <-> a < b.
Proof. unfold geS. apply (leS_false_iff b a). Qed.

(** X1: a mixed cell is never empty and never full, whatever the tolerance:
    when [isAMixedCell] answers true, [isAnEmptyCell] and [isAFullCell] both
    answer false. *)
Theorem mixed_cell_is_neither_empty_nor_full
  (s : plicVofSolving) (cellI : label)
  (Hmixed : isAMixedCell s cellI = Some true) :
  isAnEmptyCell s cellI = Some false /\ isAFullCell s cellI = Some false.
Proof.
  unfold isAMixedCell, isAnEmptyCell, isAFullCell in *.
  destruct (nth_error (alpha1In_ s) cellI) as [a|]; [|discriminate].
  injection Hmixed as Hmixed. apply andb_true_iff in Hmixed.
  destruct Hmixed as [Hlow Hhigh].
  apply ltS_iff in Hlow. apply ltS_iff in Hhigh.
  split; f_equal.
  - apply leS_false_iff. exact Hlow.
  - apply geS_false_iff. exact Hhigh.
Qed.

(** X2: with a tolerance of one half or more the mixed band is empty: no cell
    is mixed, every cell is empty or full. *)
Theorem tolerance_from_half_leaves_no_mixed_cell
  (s : plicVofSolving) (cellI : label) (a : scalar)
  (Htol : 1 # 2 <= surfCellTol_ s)
  (Ha : nth_error (alpha1In_ s) cellI = Some a) :
  isAMixedCell s cellI = Some false /\
  (isAnEmptyCell s cellI = Some true \/ isAFullCell s cellI = Some true).
Proof.
  unfold isAMixedCell, isAnEmptyCell, isAFullCell. rewrite Ha.
  split.
  - f_equal. apply andb_false_iff.
    destruct (Qlt_le_dec (surfCellTol_ s) a) as [H|H].
    + right. apply ltS_false_iff. lra.
    + left. apply ltS_false_iff. exact H.
  - destruct (Qlt_le_dec (surfCellTol_ s) a) as [H|H].
    + right. f_equal. apply geS_iff. lra.
    + left. f_equal. apply leS_iff. exact H.
Qed.

(** X3: a negative tolerance is not rejected: it makes every cell whose
    fraction is at least 0 and below 1 a mixed cell, neither empty nor full,
    also the cells of fraction exactly 0. *)
Theorem negative_tolerance_makes_cells_below_one_mixed
  (s : plicVofSolving) (cellI : label) (a : scalar)
  (Htol : surfCellTol_ s < 0)
  (Ha : nth_error (alpha1In_ s) cellI = Some a)
  (Hlow : 0 <= a)
  (Hhigh : a < 1) :
  isAMixedCell s cellI = Some true /\
  isAnEmptyCell s cellI = Some false /\
  isAFullCell s cellI = Some false.
Proof.
  assert (Hm : isAMixedCell s cellI = Some true).
  { apply (isAMixedCell_true s cellI a Ha). split; lra. }
  split; [exact Hm|].
  unfold isAnEmptyCell, isAFullCell. rewrite Ha.
  split; f_equal.
  - apply leS_false_iff. lra.
  - apply geS_false_iff. lra.
Qed.

(** X5: a wider tolerance narrows the mixed band: on the same fraction field,
    a cell that is mixed under the larger tolerance is mixed under the
    smaller one, and a cell that is empty (or full) under the smaller
    tolerance stays empty (or full) under the larger one. *)
Theorem wider_tolerance_narrows_mixed_band
  (s s' : plicVofSolving) (cellI : label)
  (Hfield : alpha1In_ s' = alpha1In_ s)
  (Htol : surfCellTol_ s <= surfCellTol_ s') :
  (isAMixedCell s' cellI = Some true -> isAMixedCell s cellI = Some true) /\
  (isAnEmptyCell s cellI = Some true -> isAnEmptyCell s' cellI = Some true) /\
  (isAFullCell s cellI = Some true -> isAFullCell s' cellI = Some true).
Proof.
  destruct (nth_error (alpha1In_ s) cellI) as [a|] eqn:Ha.
  - assert (Ha' : nth_error (alpha1In_ s') cellI = Some a)
      by (rewrite Hfield; exact Ha).
    rewrite (isAMixedCell_true s' cellI a Ha'), (isAMixedCell_true s cellI a Ha).
    rewrite (isAnEmptyCell_true s' cellI a Ha'), (isAnEmptyCell_true s cellI a Ha).
    rewrite (isAFullCell_true s' cellI a Ha'), (isAFullCell_true s cellI a Ha).
    split; [|split].
    + intros [H1 H2]. split; lra.
    + intro H. lra.
    + intro H. lra.
  - unfold isAMixedCell, isAnEmptyCell, isAFullCell. rewrite Hfield, Ha.
    split; [|split]; discriminate.
Qed.

(** X6: the bands are ordered along the fraction: on two objects with the
    same tolerance, a cell whose fraction is at least that of a full cell is
    full, and a cell whose fraction is at most that of an empty cell is
    empty. *)
Theorem bands_are_monotone_in_the_fraction
  (s s' : plicVofSolving) (cellI cellJ : label) (a a' : scalar)
  (Htol : surfCellTol_ s' == surfCellTol_ s)
  (Ha : nth_error (alpha1In_ s) cellI = Some a)
  (Ha' : nth_error (alpha1In_ s') cellJ = Some a')
  (Hle : a <= a') :
  (isAFullCell s cellI = Some true -> isAFullCell s' cellJ = Some true) /\
  (isAnEmptyCell s' cellJ = Some true -> isAnEmptyCell s cellI = Some true).
Proof.
  rewrite (isAFullCell_true s cellI a Ha), (isAFullCell_true s' cellJ a' Ha').
  rewrite (isAnEmptyCell_true s cellI a Ha), (isAnEmptyCell_true s' cellJ a' Ha').
  split; intro; lra.
Qed.

(** ** Clearing of the interface data, once more *)

Lemma exec_clearPlicInterfaceData (fresh : label -> bool) (s : plicVofSolving) :
  exec (clearPlicInterfaceData fresh) s
  = mkSolver (mesh_ s) (alpha1In_ s) (plicInterfaceField_ s) (phi_ s) (U_ s)
      (dVf_ s) (nAlphaBounds_ s) (surfCellTol_ s) [] []
      (repeat false (if topoChanging (mesh_ s) then nCells (mesh_ s)
                     else length (checkBounding_ s)))
      (repeat false (if topoChanging (mesh_ s) then nCells (mesh_ s)
                     else length (cellIsBounded_ s)))
      [] [] [].
Proof.
  unfold clearPlicInterfaceData, exec, bind, modify, gets, when, ret. simpl.
  destruct (topoChanging (mesh_ s)); simpl;
    unfold set_cellIsBounded, set_checkBounding; simpl;
    rewrite !assignAll_repeat, ?resize_length; reflexivity.
Qed.

(** X7: clearing is idempotent: a second [clearPlicInterfaceData] changes
    nothing, whatever the fresh storage of either call holds. *)
Theorem clearPlicInterfaceData_is_idempotent
  (fresh fresh' : label -> bool) (s : plicVofSolving) :
  exec (clearPlicInterfaceData fresh')
       (exec (clearPlicInterfaceData fresh) s)
  = exec (clearPlicInterfaceData fresh) s.
Proof.
  rewrite (exec_clearPlicInterfaceData fresh').
  rewrite (exec_clearPlicInterfaceData fresh). simpl.
  destruct (topoChanging (mesh_ s)); rewrite ?repeat_length; reflexivity.
Qed.

(** X8: nothing of the storage that [resize] allocates survives the call: two
    runs of [clearPlicInterfaceData] that differ only in what fresh storage
    holds end in the same object. *)
Theorem clearPlicInterfaceData_ignores_fresh_storage
  (fresh fresh' : label -> bool) (s : plicVofSolving) :
  exec (clearPlicInterfaceData fresh) s
  = exec (clearPlicInterfaceData fresh') s.
Proof.
  rewrite (exec_clearPlicInterfaceData fresh).
  rewrite (exec_clearPlicInterfaceData fresh'). reflexivity.
Qed.

(** X9: clearing touches neither the mesh nor the fields: the fraction, flux,
    velocity, transport-volume and interface fields and the tolerance are as
    before, so every cell keeps its band and [getRhoPhi] returns the same
    mass flux. *)
Theorem clearPlicInterfaceData_keeps_fields_and_bands
  (fresh : label -> bool) (s : plicVofSolving) :
  let s' := exec (clearPlicInterfaceData fresh) s in
  (mesh_ s' = mesh_ s /\ alpha1In_ s' = alpha1In_ s /\ phi_ s' = phi_ s /\
   U_ s' = U_ s /\ dVf_ s' = dVf_ s /\
   plicInterfaceField_ s' = plicInterfaceField_ s /\
   surfCellTol_ s' = surfCellTol_ s) /\
  (forall cellI : label,
      isAMixedCell s' cellI = isAMixedCell s cellI /\
      isAnEmptyCell s' cellI = isAnEmptyCell s cellI /\
      isAFullCell s' cellI = isAFullCell s cellI) /\
  (forall rho1 rho2 : scalar,
      eval (getRhoPhi rho1 rho2) s' = eval (getRhoPhi rho1 rho2) s).
Proof.
  cbv zeta. rewrite exec_clearPlicInterfaceData.
  split; [repeat split|]. split.
  - intro cellI. repeat split.
  - intros rho1 rho2. reflexivity.
Qed.

(** ** The mass flux, once more *)

Lemma getRhoPhi_at (rho1 rho2 : scalar) (s : plicVofSolving)
  (faceI : label) (dV p : scalar) :
  nth_error (dVf_ s) faceI = Some dV ->
  nth_error (phi_ s) faceI = Some p ->
  nth_error (eval (getRhoPhi rho1 rho2) s) faceI
  = Some ((rho1 - rho2) * dV / deltaT (mesh_ s) + rho2 * p).
Proof.
  intros HdV Hp. unfold getRhoPhi, eval, gets. simpl.
  apply nth_error_addField.
  - unfold divField, scaleField.
    apply (map_nth_error (fun x => x / deltaT (mesh_ s))).
    apply (map_nth_error (fun x => (rho1 - rho2) * x)). exact HdV.
  - unfold scaleField. apply (map_nth_error (fun x => rho2 * x)). exact Hp.
Qed.

(** X10: for two fluids of equal density and a non-zero timestep, the mass
    flux of a face is the density times the face flux, whatever the
    transport volume. *)
Theorem getRhoPhi_of_equal_densities
  (rho1 rho2 : scalar) (s : plicVofSolving) (faceI : label) (dV p : scalar)
  (HdV : nth_error (dVf_ s) faceI = Some dV)
  (Hp : nth_error (phi_ s) faceI = Some p)
  (Hdt : ~ deltaT (mesh_ s) == 0)
  (Hrho : rho1 == rho2) :
  exists v : scalar,
    nth_error (eval (getRhoPhi rho1 rho2) s) faceI = Some v /\
    v == rho2 * p.
Proof.
  eexists. split; [apply (getRhoPhi_at rho1 rho2 s faceI dV p HdV Hp)|].
  rewrite Hrho. field. exact Hdt.
Qed.

(** ** The timing accessors *)

(** X13: when no phase time is negative, the total solving time is at least
    the time of each phase, and it is zero exactly when all three phase times
    are zero. *)
Theorem VofSolvingTime_dominates_each_phase (t : solvingTimes)
  (Ho : 0 <= orientationTime t)
  (Hr : 0 <= reconstructionTime t)
  (Ha : 0 <= advectionTime t) :
  orientationTime t <= VofSolvingTime t /\
  reconstructionTime t <= VofSolvingTime t /\
  advectionTime t <= VofSolvingTime t /\
  (VofSolvingTime t == 0 <->
   orientationTime t == 0 /\ reconstructionTime t == 0 /\ advectionTime t == 0).
Proof.
  unfold VofSolvingTime, orientationTime, reconstructionTime, advectionTime in *.
  repeat split; lra.
Qed.

(** ** Instances in the channel *)

Lemma mixed_cell_is_neither_empty_nor_full_witness :
  isAnEmptyCell (channel false) 1%nat = Some false /\
  isAFullCell (channel false) 1%nat = Some false.
Proof.
  exact (mixed_cell_is_neither_empty_nor_full (channel false) 1%nat eq_refl).
Defined.

Lemma tolerance_from_half_leaves_no_mixed_cell_witness :
  isAMixedCell (channelWithTolerance (1 # 2)) 1%nat = Some false /\
  (isAnEmptyCell (channelWithTolerance (1 # 2)) 1%nat = Some true \/
   isAFullCell (channelWithTolerance (1 # 2)) 1%nat = Some true).
Proof.
  apply (tolerance_from_half_leaves_no_mixed_cell
           (channelWithTolerance (1 # 2)) 1%nat (1 # 2)).
  - discriminate.
  - reflexivity.
Defined.

(** A cell of fraction exactly 0 under the tolerance -1/100. *)
Lemma negative_tolerance_makes_cells_below_one_mixed_witness :
  isAMixedCell (gradedCells (- (1 # 100))) 0%nat = Some true /\
  isAnEmptyCell (gradedCells (- (1 # 100))) 0%nat = Some false /\
  isAFullCell (gradedCells (- (1 # 100))) 0%nat = Some false.
Proof.
  apply (negative_tolerance_makes_cells_below_one_mixed
           (gradedCells (- (1 # 100))) 0%nat 0).
  - reflexivity.
  - reflexivity.
  - discriminate.
  - reflexivity.
Defined.

(** Cell 3 (199/200) is full, so cell 4 (1) is full; cell 1 (1/200) is empty,
    so cell 0 (0) is empty. *)
Lemma bands_are_monotone_in_the_fraction_witness :
  isAFullCell (gradedCells (1 # 100)) 4%nat = Some true /\
  isAnEmptyCell (gradedCells (1 # 100)) 0%nat = Some true.
Proof.
  split.
  - apply (bands_are_monotone_in_the_fraction
             (gradedCells (1 # 100)) (gradedCells (1 # 100))
             3%nat 4%nat (199 # 200) 1).
    + reflexivity.
    + reflexivity.
    + reflexivity.
    + discriminate.
    + reflexivity.
  - apply (bands_are_monotone_in_the_fraction
             (gradedCells (1 # 100)) (gradedCells (1 # 100))
             0%nat 1%nat 0 (1 # 200)).
    + reflexivity.
    + reflexivity.
    + reflexivity.
    + discriminate.
    + reflexivity.
Defined.

Lemma wider_tolerance_narrows_mixed_band_witness :
  (isAMixedCell (channelWithTolerance (1 # 10)) 1%nat = Some true ->
   isAMixedCell (channelWithTolerance (1 # 100)) 1%nat = Some true) /\
  (isAnEmptyCell (channelWithTolerance (1 # 100)) 1%nat = Some true ->
   isAnEmptyCell (channelWithTolerance (1 # 10)) 1%nat = Some true) /\
  (isAFullCell (channelWithTolerance (1 # 100)) 1%nat = Some true ->
   isAFullCell (channelWithTolerance (1 # 10)) 1%nat = Some true).
Proof.
  apply (wider_tolerance_narrows_mixed_band
           (channelWithTolerance (1 # 100)) (channelWithTolerance (1 # 10))
           1%nat).
  - reflexivity.
  - discriminate.
Defined.

Lemma getRhoPhi_of_equal_densities_witness :
  exists v : scalar,
    nth_error (eval (getRhoPhi 1000 1000) (channel false)) 0%nat = Some v /\
    v == 1000 * (1 # 2).
Proof.
  apply (getRhoPhi_of_equal_densities 1000 1000 (channel false) 0%nat
           (1 # 4) (1 # 2)).
  - reflexivity.
  - reflexivity.
  - discriminate.
  - reflexivity.
Defined.

Lemma VofSolvingTime_dominates_each_phase_witness :
  orientationTime channelTimes <= VofSolvingTime channelTimes /\
  reconstructionTime channelTimes <= VofSolvingTime channelTimes /\
  advectionTime channelTimes <= VofSolvingTime channelTimes /\
  (VofSolvingTime channelTimes == 0 <->
   orientationTime channelTimes == 0 /\
   reconstructionTime channelTimes == 0 /\
   advectionTime channelTimes == 0).
Proof.
  apply (VofSolvingTime_dominates_each_phase channelTimes); discriminate.
Defined.
